(** * Hacker News scraper: the extraction-and-ranking pipeline of [scrape.py]

    The script fetches one page, selects the [.titleline] and [.subtext]
    elements, builds a record per pair, keeps the records whose score is
    above 100 and sorts them by score, highest first.  This development
    embeds the pure part of the script ([extract_score], [create_story],
    [create_custom_hn], [sort_stories_by_votes] and the top-level
    statements that select the elements and call them) together with the
    library operations those functions call, and proves the properties
    stated for them. *)

From stdpp Require Import gmap strings list fin_maps.
From Stdlib Require Import ZArith Ascii.

Local Open Scope string_scope.
Local Open Scope list_scope.
Local Open Scope Z_scope.

(** ** Exceptions

    The two exceptions the pipeline can raise: [int] rejects a text
    ([ValueError]) and [subtext[index]] is out of range ([IndexError]).
    Nothing in the script catches either. *)

Inductive exn := ValueError | IndexError.

Inductive result (A : Type) :=
| Ok (a : A)
| Raise (e : exn).
Arguments Ok {A} a.
Arguments Raise {A} e.

#[global] Instance result_ret : MRet result := fun _ a => Ok a.
#[global] Instance result_bind : MBind result := fun _ _ f m =>
  match m with
  | Ok a => f a
  | Raise e => Raise e
  end.

#[global] Instance exn_eq_dec : EqDecision exn.
Proof. solve_decision. Defined.

(** ** The document tree

    A [Tag] is an element as BeautifulSoup's [html.parser] builder holds
    it: its name, its single-valued attributes (a dict), the value of the
    multi-valued [class] attribute (a list), and its children.  A child is
    an element, a text node or a comment. *)

Inductive Tag :=
| mkTag (name : string) (attrs : gmap string string)
        (classes : list string) (contents : list Child)
with Child :=
| CTag (t : Tag)
| CString (s : string)
| CComment (s : string).

Definition name (t : Tag) : string :=
  match t with mkTag n _ _ _ => n end.
Definition attrs (t : Tag) : gmap string string :=
  match t with mkTag _ a _ _ => a end.
Definition classes (t : Tag) : list string :=
  match t with mkTag _ _ c _ => c end.
Definition contents (t : Tag) : list Child :=
  match t with mkTag _ _ _ cs => cs end.

(** The elements below [t], in document order ([Tag.descendants]
    restricted to elements); [t] itself is not among them. *)
Fixpoint descendants (t : Tag) : list Tag :=
  match t with
  | mkTag _ _ _ cs =>
      (fix go (cs : list Child) : list Tag :=
         match cs with
         | [] => []
         | CTag c :: cs' => c :: descendants c ++ go cs'
         | _ :: cs' => go cs'
         end) cs
  end.

(** [Tag.getText()]: the text nodes below [t] joined in document order;
    comments are left out. *)
Fixpoint getText (t : Tag) : string :=
  match t with
  | mkTag _ _ _ cs =>
      (fix go (cs : list Child) : string :=
         match cs with
         | [] => ""
         | CTag c :: cs' => getText c +:+ go cs'
         | CString s :: cs' => s +:+ go cs'
         | CComment _ :: cs' => go cs'
         end) cs
  end.

(** [Tag.find(nm)]: the first element below [t] named [nm], or [None]. *)
Definition find (nm : string) (t : Tag) : option Tag :=
  head (filter (fun d => name d = nm) (descendants t)).

(** [Tag.get(key)]: the attribute's value, or [None] when it is absent. *)
Definition get (key : string) (t : Tag) : option string :=
  attrs t !! key.

(** [Tag.select("." + cls)]: every element below [t] that carries the
    class [cls], in document order. *)
Definition select_class (cls : string) (t : Tag) : list Tag :=
  filter (fun d => cls ∈ classes d) (descendants t).

(** ** Python's [str.replace] and [int]

    Texts are [string]s; a character is read as a code point below 256. *)

(** [s.replace(old, new)] for a non-empty [old]: every occurrence of
    [old], found from the left and not overlapping an earlier one, is
    replaced.  [skip] counts the characters of a matched occurrence that
    are still to be dropped. *)
Fixpoint replace_from (old new : string) (skip : nat) (s : string) : string :=
  match s with
  | EmptyString => ""
  | String c s' =>
      match skip with
      | S k => replace_from old new k s'
      | O =>
          if String.prefix old s
          then new +:+ replace_from old new (String.length old - 1) s'
          else String c (replace_from old new 0 s')
      end
  end.

Definition replace (old new s : string) : string := replace_from old new 0 s.

Definition code (c : ascii) : Z := Z.of_N (N_of_ascii c).

(** The characters [int] skips around the literal: tab, line feed,
    vertical tab, form feed, carriage return and space, and the two
    whitespace characters above 127, U+0085 and U+00A0. *)
Definition is_space (c : ascii) : bool :=
  let n := code c in
  ((9 <=? n) && (n <=? 13)) || (n =? 32) || (n =? 133) || (n =? 160).

Definition digit_value (c : ascii) : option Z :=
  let n := code c in
  if (48 <=? n) && (n <=? 57) then Some (n - 48) else None.

Fixpoint lstrip (s : string) : string :=
  match s with
  | EmptyString => ""
  | String c s' => if is_space c then lstrip s' else s
  end.

(** The run of digits and underscores at the head of [s]: its value, the
    number of digits in it, and what follows it.  [prev] tells that the
    character before was an underscore; two underscores in a row and an
    underscore at the end of the run are rejected. *)
Fixpoint scan_digits (prev : bool) (acc digits : Z) (s : string)
  : option (Z * Z * string) :=
  match s with
  | EmptyString => if prev then None else Some (acc, digits, "")
  | String c s' =>
      match digit_value c with
      | Some d => scan_digits false (10 * acc + d) (digits + 1) s'
      | None =>
          if Ascii.eqb c "_"%char
          then (if prev then None else scan_digits true acc digits s')
          else (if prev then None else Some (acc, digits, s))
      end
  end.

(** The interpreter's default limit on the number of digits of a decimal
    literal that [int] converts. *)
Definition int_max_str_digits : Z := 4300.

(** [int(s)] in base 10: optional whitespace, an optional sign, digits
    with single underscores between them, optional whitespace; [None]
    stands for [ValueError]. *)
Definition int_of_str (s : string) : option Z :=
  let s1 := lstrip s in
  let '(sign, s2) :=
    match s1 with
    | String "+"%char r => (1, r)
    | String "-"%char r => (-1, r)
    | _ => (1, s1)
    end in
  match s2 with
  | String "_"%char _ => None
  | _ =>
      match scan_digits false 0 0 s2 with
      | Some (n, digits, rest) =>
          if digits =? 0 then None
          else match lstrip rest with
               | EmptyString =>
                   if int_max_str_digits <? digits then None
                   else Some (sign * n)
               | String _ _ => None
               end
      | None => None
      end
  end.

Definition int (s : string) : result Z :=
  match int_of_str s with
  | Some n => Ok n
  | None => Raise ValueError
  end.

(** ** The script *)

(** The dict [{"Title": ..., "href": ..., "Score": ...}]. *)
Record Story := mkStory { Title : string; href : string; Score : Z }.

#[global] Instance Story_eq_dec : EqDecision Story.
Proof. solve_decision. Defined.

(** [sorted(l, key=Score, reverse=True)]: a stable sort, highest key
    first.  [insert_desc s l] puts [s] in front of the first record whose
    score is not above its own, so a record inserted later in the fold
    (one that stood earlier in the input) stays ahead of its equals.
    Being stable and descending fixes the result
    ([sorted_by_score_desc_unique]). *)
Fixpoint insert_desc (s : Story) (l : list Story) : list Story :=
  match l with
  | [] => [s]
  | x :: l' =>
      if Score s <? Score x then x :: insert_desc s l' else s :: l
  end.

Definition sorted_by_score_desc (l : list Story) : list Story :=
  foldr insert_desc [] l.

Definition extract_score (subtext_item : Tag) : result Z :=
  let vote := select_class "score" subtext_item in
  match vote with
  | v :: _ => int (replace " points" "" (getText v))
  | [] => Ok 0
  end.

Definition create_story (link subtext_item : Tag) : result (option Story) :=
  let a_tag := find "a" link in
  match a_tag with
  | Some a =>
      match get "href" a with
      | Some h =>
          if bool_decide (h = "") then Ok None
          else
            let title := getText a in
            score ← extract_score subtext_item;
            Ok (if 100 <? score
                then Some {| Title := title; href := h; Score := score |}
                else None)
      | None => Ok None
      end
  | None => Ok None
  end.

Definition sort_stories_by_votes (stories : list Story) : list Story :=
  sorted_by_score_desc stories.

(** [subtext[index]] for an index that is not negative. *)
Definition getitem {A} (l : list A) (index : nat) : result A :=
  match l !! index with
  | Some x => Ok x
  | None => Raise IndexError
  end.

(** The [for index, link in enumerate(links)] loop of [create_custom_hn],
    from position [index] on, with the records appended so far. *)
Fixpoint collect (index : nat) (links subtext : list Tag)
    (filtered_stories : list Story) : result (list Story) :=
  match links with
  | [] => Ok filtered_stories
  | link :: links' =>
      subtext_item ← getitem subtext index;
      story ← create_story link subtext_item;
      collect (S index) links' subtext
        (match story with
         | Some s => filtered_stories ++ [s]
         | None => filtered_stories
         end)
  end.

Definition create_custom_hn (links subtext : list Tag) : result (list Story) :=
  filtered_stories ← collect 0 links subtext [];
  Ok (sort_stories_by_votes filtered_stories).

(** The script's top level, from the parsed page on:
    [soup.select(".titleline")], [soup.select(".subtext")] and the call
    whose result is printed. *)
Definition main_logic (soup : Tag) : result (list Story) :=
  let links := select_class "titleline" soup in
  let subtext := select_class "subtext" soup in
  create_custom_hn links subtext.

(** ** List objects

    [sorted] builds a new list object, where [list.sort] would reorder
    the one it is called on.  To tell the two apart, list objects live in
    a store and are passed by reference. *)

Abbreviation heap := (gmap positive (list Story)).

Definition alloc (h : heap) (l : list Story) : positive * heap :=
  let r := fresh (dom h) in (r, <[r := l]> h).

(** [sort_stories_by_votes] on a reference: reads the list [stories]
    points to and returns a reference to the new, sorted list. *)
Definition sort_stories_by_votes_ref (h : heap) (stories : positive)
  : option (positive * heap) :=
  l ← h !! stories;
  Some (alloc h (sort_stories_by_votes l)).

(** ** Notions the properties are stated with *)

(** Every record is followed by one whose score is not higher. *)
Definition adjacent_desc (l : list Story) : Prop :=
  ∀ i s t, l !! i = Some s → l !! S i = Some t → Score t ≤ Score s.

(** Records of one score [k], in the order the list has them. *)
Definition with_score (k : Z) (l : list Story) : list Story :=
  filter (λ s, Score s = k) l.

(** What one iteration of the loop leaves in the list. *)
Definition kept (acc : list Story) (story : option Story) : list Story :=
  match story with
  | Some s => acc ++ [s]
  | None => acc
  end.

Definition is_digit (c : ascii) : bool :=
  match digit_value c with Some _ => true | None => false end.

Fixpoint drop_digits (s : string) : string :=
  match s with
  | EmptyString => ""
  | String c s' => if is_digit c then drop_digits s' else s
  end.

Fixpoint all_digits (s : string) : bool :=
  match s with
  | EmptyString => true
  | String c s' => is_digit c && all_digits s'
  end.

(** The shape ["<digits> points"]: one or more decimal digits followed by
    the label and nothing else. *)
Definition digits_points_shape (t : string) : bool :=
  match t with
  | EmptyString => false
  | String c _ => is_digit c && String.eqb (drop_digits t) " points"
  end.

(** Running on unequal lists as if both were cut to the shorter one. *)
Definition truncates_to_shorter (links subtext : list Tag) : Prop :=
  let n := Nat.min (length links) (length subtext) in
  create_custom_hn links subtext =
    create_custom_hn (take n links) (take n subtext).

(** A score text outside the shape makes [extract_score] raise and the
    run on the pair abort. *)
Definition nonconforming_score_aborts (link meta : Tag) : Prop :=
  ∀ v vs,
    select_class "score" meta = v :: vs →
    digits_points_shape (getText v) = false →
    extract_score meta = Raise ValueError ∧
    ∃ e, create_custom_hn [link] [meta] = Raise e.

(** Every pair of the two lists below index [i] makes [create_story]
    return. *)
Definition returns_before (i : nat) (links subtext : list Tag) : Prop :=
  ∀ j l m, (j < i)%nat → links !! j = Some l → subtext !! j = Some m →
           ∃ r, create_story l m = Ok r.

(** [stories] holds, position by position, what [create_story] returns
    for the pairs of the two lists. *)
Definition pair_results (links subtext : list Tag)
    (stories : list (option Story)) : Prop :=
  Forall2 (λ p story, create_story p.1 p.2 = Ok story)
    (zip links subtext) stories.

(** Decimal digits as text and as a number. *)
Definition digit_char (d : Z) : ascii := ascii_of_N (Z.to_N (48 + d)).

Definition digits_text (ds : list Z) : string :=
  foldr (λ d s, String (digit_char d) s) "" ds.

Definition decimal (ds : list Z) : Z :=
  foldl (λ acc d, 10 * acc + d) 0 ds.

(** The elements at or below [t] that carry the class [cls]. *)
Definition nodes_in (cls : string) (t : Tag) : list Tag :=
  (if decide (cls ∈ classes t) then [t] else []) ++ select_class cls t.

(** ** Sample nodes, shaped like the page's markup *)

Definition story_link (title h : string) : Tag :=
  mkTag "span" ∅ ["titleline"]
    [CTag (mkTag "a" {[ "href" := h ]} [] [CString title])].

Definition story_subtext (score_text : string) : Tag :=
  mkTag "td" ∅ ["subtext"]
    [CTag (mkTag "span" ∅ ["subline"]
       [CTag (mkTag "span" {[ "id" := "score_1" ]} ["score"]
                [CString score_text]);
        CString " by ";
        CTag (mkTag "a" {[ "href" := "user?id=pg" ]} ["hnuser"]
                [CString "pg"])])].

(** A title line with no anchor in it, one whose anchor has no [href],
    and a subtext line with no score (as job postings have). *)
Definition link_without_anchor : Tag :=
  mkTag "span" ∅ ["titleline"] [CString "Foo"].

Definition link_without_href : Tag :=
  mkTag "span" ∅ ["titleline"]
    [CTag (mkTag "a" {[ "id" := "up_1" ]} [] [CString "Foo"])].

Definition subtext_without_score : Tag :=
  mkTag "td" ∅ ["subtext"]
    [CTag (mkTag "span" ∅ ["age"] [CString "2 hours ago"])].

(** ** Properties of the sort *)

Section sorting.

Implicit Types (s x y : Story) (l : list Story).

Lemma adjacent_desc_nil : adjacent_desc [].
Proof. intros i s t H. by rewrite lookup_nil in H. Qed.

Lemma adjacent_desc_one x : adjacent_desc [x].
Proof. intros [|i] s t _ H; simpl in H; by rewrite ?lookup_nil in H. Qed.

Lemma adjacent_desc_cons x y l :
  adjacent_desc (x :: y :: l) ↔ Score y ≤ Score x ∧ adjacent_desc (y :: l).
Proof.
  split.
  - intros H. split.
    + by apply (H 0%nat x y).
    + intros i s t Hs Ht. by apply (H (S i) s t).
  - intros [Hxy H] [|i] s t Hs Ht; simpl in *.
    + by simplify_eq.
    + by apply (H i s t).
Qed.

Lemma adjacent_desc_tail x l : adjacent_desc (x :: l) → adjacent_desc l.
Proof. intros H i s t Hs Ht. by apply (H (S i) s t). Qed.

(** The first record after an insertion is the inserted one or the
    old first one. *)
Lemma insert_desc_head s x l :
  ∃ l', insert_desc s (x :: l) = (if Score s <? Score x then x else s) :: l'.
Proof. simpl. destruct (Score s <? Score x); eauto. Qed.

Lemma insert_desc_adjacent s l :
  adjacent_desc l → adjacent_desc (insert_desc s l).
Proof.
  induction l as [|x l IH]; intros Hl; simpl.
  - apply adjacent_desc_one.
  - destruct (Z.ltb_spec (Score s) (Score x)) as [Hlt|Hge].
    + specialize (IH (adjacent_desc_tail _ _ Hl)).
      destruct l as [|y l]; simpl in *.
      * apply adjacent_desc_cons. split; [lia | apply adjacent_desc_one].
      * apply adjacent_desc_cons in Hl as [Hyx _].
        destruct (Score s <? Score y);
          apply adjacent_desc_cons; split; (lia || done).
    + apply adjacent_desc_cons. split; [lia | done].
Qed.

Lemma sorted_by_score_desc_adjacent l :
  adjacent_desc (sorted_by_score_desc l).
Proof.
  induction l as [|x l IH]; simpl.
  - apply adjacent_desc_nil.
  - by apply insert_desc_adjacent.
Qed.

Lemma insert_desc_perm s l : insert_desc s l ≡ₚ s :: l.
Proof.
  induction l as [|x l IH]; simpl; [done|].
  destruct (Score s <? Score x); [|done].
  rewrite IH. apply Permutation_swap.
Qed.

Lemma sorted_by_score_desc_perm l : sorted_by_score_desc l ≡ₚ l.
Proof.
  induction l as [|x l IH]; simpl; [done|].
  by rewrite insert_desc_perm, IH.
Qed.

Lemma sort_stories_by_votes_elem s l :
  s ∈ sort_stories_by_votes l ↔ s ∈ l.
Proof. unfold sort_stories_by_votes. by rewrite sorted_by_score_desc_perm. Qed.

Lemma with_score_cons k x l :
  with_score k (x :: l) =
    if decide (Score x = k) then x :: with_score k l else with_score k l.
Proof. unfold with_score. by rewrite filter_cons. Qed.

Lemma insert_desc_with_score k s l :
  with_score k (insert_desc s l) = with_score k (s :: l).
Proof.
  induction l as [|x l IH]; simpl; [done|].
  destruct (Z.ltb_spec (Score s) (Score x)) as [Hlt|Hge]; [|done].
  rewrite (with_score_cons k x), IH.
  rewrite !with_score_cons.
  repeat case_decide; (done || lia).
Qed.

Lemma sorted_by_score_desc_with_score k l :
  with_score k (sorted_by_score_desc l) = with_score k l.
Proof.
  induction l as [|x l IH]; simpl; [done|].
  rewrite insert_desc_with_score.
  by rewrite !with_score_cons, IH.
Qed.

(** A record kept by a filter splits the filtered list where it splits
    the filter's result. *)
Lemma with_score_split k l a x r :
  with_score k l = a ++ x :: r →
  ∃ l1 l2, l = l1 ++ x :: l2 ∧ with_score k l1 = a ∧ with_score k l2 = r.
Proof.
  revert a. induction l as [|y l IH]; intros a H.
  - by destruct a.
  - rewrite with_score_cons in H. case_decide as Hy.
    + destruct a as [|a0 a]; simpl in H; simplify_eq.
      * by exists [], l.
      * destruct (IH a) as (l1 & l2 & -> & <- & <-); [done|].
        exists (a0 :: l1), l2. rewrite with_score_cons.
        by rewrite decide_True.
    + destruct (IH a H) as (l1 & l2 & -> & <- & <-).
      exists (y :: l1), l2. rewrite with_score_cons.
      by rewrite decide_False.
Qed.

(** The first record of a descending list has the highest score. *)
Lemma adjacent_desc_head_max x l :
  adjacent_desc (x :: l) → ∀ y, y ∈ l → Score y ≤ Score x.
Proof.
  revert x. induction l as [|z l IH]; intros x Hl y Hy.
  - by apply elem_of_nil in Hy.
  - apply adjacent_desc_cons in Hl as [Hzx Hl].
    apply elem_of_cons in Hy as [->|Hy]; [done|].
    specialize (IH z Hl y Hy). lia.
Qed.

Lemma with_score_head x l : with_score (Score x) (x :: l) = x :: with_score (Score x) l.
Proof. by rewrite with_score_cons, decide_True. Qed.

Lemma with_score_elem k y l : y ∈ with_score k l ↔ Score y = k ∧ y ∈ l.
Proof. unfold with_score. by rewrite list_elem_of_filter. Qed.

Lemma head_score_le x l1 y l2 :
  adjacent_desc (x :: l1) →
  (∀ k, with_score k (x :: l1) = with_score k (y :: l2)) →
  Score y ≤ Score x.
Proof.
  intros Hl1 H.
  assert (y ∈ x :: l1) as Hy.
  { apply (with_score_elem (Score y)). rewrite H, with_score_head. left. }
  apply elem_of_cons in Hy as [->|Hy]; [done|].
  by apply (adjacent_desc_head_max x l1).
Qed.

(** A descending list is determined by its records of each score. *)
Lemma adjacent_desc_determined l1 l2 :
  adjacent_desc l1 → adjacent_desc l2 →
  (∀ k, with_score k l1 = with_score k l2) →
  l1 = l2.
Proof.
  revert l2. induction l1 as [|x l1 IH]; intros [|y l2] H1 H2 H; [done|..].
  - specialize (H (Score y)). by rewrite with_score_head in H.
  - specialize (H (Score x)). by rewrite with_score_head in H.
  - assert (Score x = Score y) as Hxy.
    { pose proof (head_score_le x l1 y l2 H1 H).
      pose proof (head_score_le y l2 x l1 H2 (λ k, eq_sym (H k))). lia. }
    assert (x = y) as <-.
    { specialize (H (Score x)). rewrite with_score_head in H.
      rewrite Hxy, with_score_head in H. by simplify_eq. }
    f_equal. apply IH.
    + by apply (adjacent_desc_tail x).
    + by apply (adjacent_desc_tail x).
    + intros k. specialize (H k). rewrite !with_score_cons in H.
      case_decide; by simplify_eq.
Qed.

(** So there is one stable descending sort: any list in descending order
    that keeps the records of every score in their input sequence is the
    list [sorted_by_score_desc] returns. *)
Lemma sorted_by_score_desc_unique l l' :
  adjacent_desc l' →
  (∀ k, with_score k l' = with_score k l) →
  l' = sorted_by_score_desc l.
Proof.
  intros Hl' H. apply adjacent_desc_determined; [done|..].
  - apply sorted_by_score_desc_adjacent.
  - intros k. by rewrite H, sorted_by_score_desc_with_score.
Qed.

End sorting.

(** ** Properties of [replace] and [int] *)

Section literals.

Implicit Types (c : ascii) (d s t : string).

Lemma is_digit_value c :
  is_digit c = true → ∃ n, digit_value c = Some n ∧ 0 ≤ n.
Proof.
  unfold is_digit, digit_value.
  destruct (Z.leb_spec 48 (code c)); simpl; [|done].
  destruct (code c <=? 57); [|done].
  intros _. eexists. split; [done|lia].
Qed.

Lemma prefix_points_digit c s :
  is_digit c = true → String.prefix " points" (String c s) = false.
Proof.
  destruct c as [[] [] [] [] [] [] [] []]; intros H; vm_compute in H;
    try discriminate H; reflexivity.
Qed.

Lemma int_of_str_digit_head c s :
  is_digit c = true →
  int_of_str (String c s) =
    match scan_digits false 0 0 (String c s) with
    | Some (n, digits, rest) =>
        if digits =? 0 then None
        else match lstrip rest with
             | EmptyString =>
                 if int_max_str_digits <? digits then None else Some (1 * n)
             | String _ _ => None
             end
    | None => None
    end.
Proof.
  destruct c as [[] [] [] [] [] [] [] []]; intros H; vm_compute in H;
    try discriminate H; reflexivity.
Qed.

Lemma scan_digits_all d acc n :
  all_digits d = true → 0 ≤ acc →
  ∃ v, 0 ≤ v ∧
       scan_digits false acc n d = Some (v, n + Z.of_nat (String.length d), "").
Proof.
  revert acc n. induction d as [|c d IH]; intros acc n Hd Hacc; simpl.
  - exists acc. split; [done|]. by rewrite Z.add_0_r.
  - simpl in Hd. apply andb_prop in Hd as [Hc Hd].
    destruct (is_digit_value c Hc) as (k & -> & Hk).
    destruct (IH (10 * acc + k) (n + 1) Hd) as (v & Hv & ->); [lia|].
    exists v. split; [done|]. do 3 f_equal. lia.
Qed.

Lemma drop_digits_split s :
  ∃ d, s = d +:+ drop_digits s ∧ all_digits d = true.
Proof.
  induction s as [|c s (d & Hs & Hd)]; simpl.
  - by exists "".
  - destruct (is_digit c) eqn:Hc.
    + exists (String c d). split.
      * change (String c d +:+ drop_digits s)
          with (String c (d +:+ drop_digits s)). by f_equal.
      * simpl. by rewrite Hc, Hd.
    + by exists "".
Qed.

Lemma digits_points_shape_split t :
  digits_points_shape t = true →
  ∃ c d, t = String c d +:+ " points" ∧ is_digit c = true ∧ all_digits d = true.
Proof.
  destruct t as [|c t]; simpl; [done|].
  intros [Hc Ht]%andb_prop. rewrite Hc in Ht.
  apply String.eqb_eq in Ht.
  destruct (drop_digits_split t) as (d & Hs & Hd).
  exists c, d. split_and!; [|done..].
  change (String c d +:+ " points") with (String c (d +:+ " points")).
  f_equal. by rewrite <-Ht.
Qed.

(** Removing the label from a run of digits followed by it leaves the
    digits. *)
Lemma replace_digits_points d :
  all_digits d = true → replace " points" "" (d +:+ " points") = d.
Proof.
  unfold replace. induction d as [|c d IH]; intros Hd; [done|].
  simpl in Hd. apply andb_prop in Hd as [Hc Hd].
  change (String c d +:+ " points") with (String c (d +:+ " points")).
  cbv fix beta iota delta [replace_from]. fold replace_from. 
  rewrite (prefix_points_digit c _ Hc). by rewrite IH.
Qed.

(** A text of the shape "<digits> points", of at most 4300 digits, is
    converted. *)
Lemma digits_points_accepted t :
  digits_points_shape t = true →
  (String.length t ≤ 4307)%nat →
  ∃ n, 0 ≤ n ∧ int (replace " points" "" t) = Ok n.
Proof.
  intros (c & d & -> & Hc & Hd)%digits_points_shape_split Hlen.
  assert (all_digits (String c d) = true) as Hcd by (simpl; by rewrite Hc).
  rewrite (replace_digits_points _ Hcd).
  unfold int. rewrite (int_of_str_digit_head c d Hc).
  destruct (scan_digits_all (String c d) 0 0 Hcd) as (v & Hv & ->); [done|].
  assert (String.length (String c d) ≤ 4300)%nat as Hlen'.
  { clear -Hlen. revert Hlen. generalize (String c d). intros s.
    assert (String.length (s +:+ " points") = String.length s + 7)%nat as ->.
    { induction s as [|a s IH]; simpl; [done|]. by rewrite IH. }
    lia. }
  exists v. split; [done|].
  destruct (Z.eqb_spec (0 + Z.of_nat (String.length (String c d))) 0) as [H0|_].
  { simpl in H0. lia. }
  simpl lstrip. unfold int_max_str_digits.
  destruct (Z.ltb_spec 4300 (0 + Z.of_nat (String.length (String c d))));
    [lia|].
  f_equal. lia.
Qed.
End literals.

(** ** Properties of the loop *)

Section pipeline.

Implicit Types (link meta : Tag) (links subtext : list Tag).
Implicit Types (s : Story) (acc out : list Story).

Lemma kept_app acc story : kept acc story = acc ++ option_list story.
Proof. destruct story; simpl; by rewrite ?app_nil_r. Qed.

Lemma getitem_drop {A} (l : list A) (i : nat) :
  getitem l i = getitem (drop i l) 0.
Proof. unfold getitem. by rewrite lookup_drop, Nat.add_0_r. Qed.

(** The loop reads [subtext] from its current index on only. *)
Lemma collect_drop i links subtext acc :
  collect i links subtext acc = collect 0 links (drop i subtext) acc.
Proof.
  revert i subtext acc.
  induction links as [|link links IH]; intros i subtext acc; [done|].
  simpl. rewrite (getitem_drop subtext i).
  destruct (getitem (drop i subtext) 0) as [meta|e]; simpl; [|done].
  destruct (create_story link meta) as [story|e]; simpl; [|done].
  rewrite (IH (S i)), (IH 1%nat), drop_drop.
  by replace (i + 1)%nat with (S i) by lia.
Qed.

Lemma collect_cons link links meta subtext acc :
  collect 0 (link :: links) (meta :: subtext) acc =
    story ← create_story link meta; collect 0 links subtext (kept acc story).
Proof.
  simpl. destruct (create_story link meta) as [story|e]; simpl; [|done].
  by rewrite collect_drop.
Qed.

Lemma collect_no_subtext link links acc :
  collect 0 (link :: links) [] acc = Raise IndexError.
Proof. done. Qed.

(** The records appended before the loop's current position stay at
    the front of its result. *)
Lemma collect_acc links subtext acc :
  collect 0 links subtext acc =
    out ← collect 0 links subtext []; Ok (acc ++ out).
Proof.
  revert subtext acc.
  induction links as [|link links IH]; intros subtext acc.
  - simpl. by rewrite app_nil_r.
  - destruct subtext as [|meta subtext]; [done|].
    rewrite !collect_cons.
    destruct (create_story link meta) as [story|e]; simpl; [|done].
    rewrite (IH subtext (kept acc story)), (IH subtext (kept [] story)).
    destruct (collect 0 links subtext []) as [out|e]; simpl; [|done].
    by rewrite !kept_app, app_assoc.
Qed.

(** A property of every record [create_story] builds holds of every
    record the loop returns. *)
Lemma collect_Forall (P : Story → Prop) links subtext acc out :
  (∀ link meta s, create_story link meta = Ok (Some s) → P s) →
  Forall P acc →
  collect 0 links subtext acc = Ok out →
  Forall P out.
Proof.
  intros HP. revert subtext acc.
  induction links as [|link links IH]; intros subtext acc Hacc H.
  - simpl in H. by simplify_eq.
  - destruct subtext as [|meta subtext]; [done|].
    rewrite collect_cons in H.
    destruct (create_story link meta) as [story|e] eqn:Hs; simpl in H; [|done].
    apply (IH subtext (kept acc story)); [|done].
    rewrite kept_app. apply Forall_app. split; [done|].
    destruct story as [s|]; simpl; eauto.
Qed.

(** The record built at an index is in the loop's result. *)
Lemma collect_elem links subtext acc out (i : nat) link meta s :
  links !! i = Some link →
  subtext !! i = Some meta →
  create_story link meta = Ok (Some s) →
  collect 0 links subtext acc = Ok out →
  s ∈ out.
Proof.
  revert subtext acc i.
  induction links as [|l0 links IH]; intros subtext acc i Hl Hm Hs H; [done|].
  destruct subtext as [|m0 subtext]; [done|].
  rewrite collect_cons in H.
  destruct i as [|i]; simpl in Hl, Hm.
  - simplify_eq. rewrite Hs in H. simpl in H.
    rewrite collect_acc in H.
    destruct (collect 0 links subtext []) as [o|e]; simpl in H; [|done].
    simplify_eq. set_solver.
  - destruct (create_story l0 m0) as [story|e]; simpl in H; [|done].
    by apply (IH subtext (kept acc story) i).
Qed.

(** An exception raised at an index aborts the loop, there or before. *)
Lemma collect_raise links subtext acc (i : nat) link meta e :
  links !! i = Some link →
  subtext !! i = Some meta →
  create_story link meta = Raise e →
  ∃ e', collect 0 links subtext acc = Raise e'.
Proof.
  revert subtext acc i.
  induction links as [|l0 links IH]; intros subtext acc i Hl Hm He; [done|].
  destruct subtext as [|m0 subtext]; [done|].
  rewrite collect_cons.
  destruct i as [|i]; simpl in Hl, Hm.
  - simplify_eq. rewrite He. by eexists.
  - destruct (create_story l0 m0) as [story|e0]; simpl; [|by eexists].
    by apply (IH subtext (kept acc story) i).
Qed.

(** A pair for which [create_story] returns [None] can be taken out of
    the two lists without changing what the loop returns. *)
Lemma collect_skip links1 links2 subtext1 subtext2 link meta acc :
  length links1 = length subtext1 →
  create_story link meta = Ok None →
  collect 0 (links1 ++ link :: links2) (subtext1 ++ meta :: subtext2) acc =
    collect 0 (links1 ++ links2) (subtext1 ++ subtext2) acc.
Proof.
  intros Hlen Hnone. revert subtext1 Hlen acc.
  induction links1 as [|l0 links1 IH]; intros [|m0 subtext1] Hlen acc;
    try discriminate Hlen.
  - rewrite !app_nil_l, collect_cons. by rewrite Hnone.
  - rewrite <-!app_comm_cons, !collect_cons.
    destruct (create_story l0 m0) as [story|e]; simpl; [|done].
    apply IH. by injection Hlen.
Qed.

(** Metadata beyond the last link is never read. *)
Lemma collect_take links subtext acc :
  (length links ≤ length subtext)%nat →
  collect 0 links subtext acc =
    collect 0 links (take (length links) subtext) acc.
Proof.
  revert subtext acc.
  induction links as [|link links IH]; intros subtext acc Hlen; [done|].
  destruct subtext as [|meta subtext]; simpl in Hlen; [lia|].
  simpl take. rewrite !collect_cons.
  destruct (create_story link meta) as [story|e]; simpl; [|done].
  apply IH. lia.
Qed.

(** With fewer metadata nodes than links the loop raises. *)
Lemma collect_short links subtext acc :
  (length subtext < length links)%nat →
  ∃ e, collect 0 links subtext acc = Raise e.
Proof.
  revert subtext acc.
  induction links as [|link links IH]; intros subtext acc Hlen;
    simpl in Hlen; [lia|].
  destruct subtext as [|meta subtext]; [by eexists|].
  rewrite collect_cons.
  destruct (create_story link meta) as [story|e]; simpl; [|by eexists].
  apply IH. simpl in Hlen. lia.
Qed.

(** It raises [IndexError] when the pairs that do exist raise nothing. *)
Lemma collect_short_index links subtext acc out :
  (length subtext < length links)%nat →
  collect 0 (take (length subtext) links) subtext acc = Ok out →
  collect 0 links subtext acc = Raise IndexError.
Proof.
  revert subtext acc.
  induction links as [|link links IH]; intros subtext acc Hlen H;
    simpl in Hlen; [lia|].
  destruct subtext as [|meta subtext]; [done|].
  simpl length in H. simpl take in H. rewrite collect_cons in H |- *.
  destruct (create_story link meta) as [story|e]; simpl in *; [|done].
  apply IH; [lia | done].
Qed.

End pipeline.

(** ** Properties of [extract_score] and [create_story] *)

Section story.

Implicit Types (link meta a v : Tag) (s : Story).

(** Where a record comes from. *)
Lemma create_story_Some link meta s :
  create_story link meta = Ok (Some s) →
  ∃ a h, find "a" link = Some a ∧ get "href" a = Some h ∧ h ≠ "" ∧
         extract_score meta = Ok (Score s) ∧ 100 < Score s ∧
         s = {| Title := getText a; href := h; Score := Score s |}.
Proof.
  unfold create_story. intros H.
  destruct (find "a" link) as [a|]; [|done].
  destruct (get "href" a) as [h|] eqn:Hg; [|done].
  case_bool_decide as Hh; [done|].
  destruct (extract_score meta) as [score|e]; simpl in H; [|done].
  destruct (Z.ltb_spec 100 score); simplify_eq.
  by exists a, h.
Qed.

Lemma create_story_no_anchor link meta :
  find "a" link = None → create_story link meta = Ok None.
Proof. unfold create_story. by intros ->. Qed.

Lemma create_story_no_href link meta a :
  find "a" link = Some a → get "href" a = None →
  create_story link meta = Ok None.
Proof. unfold create_story. by intros -> ->. Qed.

Lemma create_story_empty_href link meta a :
  find "a" link = Some a → get "href" a = Some "" →
  create_story link meta = Ok None.
Proof. unfold create_story. by intros -> ->. Qed.

(** With a usable anchor the outcome is decided by the score. *)
Lemma create_story_scored link meta a h :
  find "a" link = Some a → get "href" a = Some h → h ≠ "" →
  create_story link meta =
    score ← extract_score meta;
    Ok (if 100 <? score
        then Some {| Title := getText a; href := h; Score := score |}
        else None).
Proof.
  unfold create_story. intros -> -> Hh. by rewrite bool_decide_eq_false_2.
Qed.

Lemma extract_score_present meta v vs :
  select_class "score" meta = v :: vs →
  extract_score meta = int (replace " points" "" (getText v)).
Proof. unfold extract_score. by intros ->. Qed.

Lemma extract_score_absent meta :
  select_class "score" meta = [] → extract_score meta = Ok 0.
Proof. unfold extract_score. by intros ->. Qed.

(** The nominal case: a score text of the shape "<digits> points" is
    converted to a number that is not negative. *)
Lemma extract_score_conforming meta v vs :
  select_class "score" meta = v :: vs →
  digits_points_shape (getText v) = true →
  (String.length (getText v) ≤ 4307)%nat →
  ∃ n, 0 ≤ n ∧ extract_score meta = Ok n.
Proof.
  intros Hv Hshape Hlen. rewrite (extract_score_present _ _ _ Hv).
  by apply digits_points_accepted.
Qed.

(** Taking out a pair that yields no record leaves the output as it is. *)
Lemma create_custom_hn_skip links1 links2 subtext1 subtext2 link meta :
  length links1 = length subtext1 →
  create_story link meta = Ok None →
  create_custom_hn (links1 ++ link :: links2) (subtext1 ++ meta :: subtext2) =
    create_custom_hn (links1 ++ links2) (subtext1 ++ subtext2).
Proof.
  intros Hlen Hnone. unfold create_custom_hn.
  by rewrite (collect_skip _ _ _ _ _ _ _ Hlen Hnone).
Qed.

Lemma create_custom_hn_Ok links subtext out :
  create_custom_hn links subtext = Ok out →
  ∃ filtered, collect 0 links subtext [] = Ok filtered ∧
              out = sort_stories_by_votes filtered.
Proof.
  unfold create_custom_hn. intros H.
  destruct (collect 0 links subtext []) as [filtered|e]; simpl in H; [|done].
  simplify_eq. by exists filtered.
Qed.

End story.

(** ** The stated properties *)

(** C1, threshold.  Whenever [create_custom_hn] returns a list, every
    record in it has a score strictly above 100, so no record with a score
    of 100 or less appears in it. *)
Theorem create_custom_hn_threshold (links subtext : list Tag) (out : list Story) :
  create_custom_hn links subtext = Ok out →
  Forall (λ s, 100 < Score s) out ∧ ∀ s, s ∈ out → ¬ Score s ≤ 100.
Proof.
  intros (filtered & Hc & ->)%create_custom_hn_Ok.
  assert (Forall (λ s, 100 < Score s) (sort_stories_by_votes filtered)) as HF.
  { unfold sort_stories_by_votes. rewrite sorted_by_score_desc_perm.
    apply (collect_Forall _ links subtext [] filtered); [|done..].
    intros link meta s Hs. by destruct (create_story_Some _ _ _ Hs)
      as (? & ? & _ & _ & _ & _ & ? & _). }
  split; [done|].
  intros s Hs. rewrite Forall_forall in HF. specialize (HF s Hs). lia.
Qed.

Lemma create_custom_hn_threshold_witness :
  Forall (λ s, 100 < Score s)
    [mkStory "B" "http://b" 500; mkStory "Foo" "http://a" 150].
Proof.
  apply (create_custom_hn_threshold
           [story_link "Foo" "http://a"; story_link "Low" "http://l";
            story_link "B" "http://b"]
           [story_subtext "150 points"; story_subtext "99 points";
            story_subtext "500 points"]).
  vm_compute. reflexivity.
Defined.

(** C2, order.  The list [sort_stories_by_votes] returns is in descending
    order of score: each record's score is at least that of the record
    after it.  The same holds of every list [create_custom_hn] returns. *)
Theorem sort_stories_by_votes_descending
    (stories : list Story) (links subtext : list Tag) (out : list Story) :
  adjacent_desc (sort_stories_by_votes stories) ∧
  (create_custom_hn links subtext = Ok out → adjacent_desc out).
Proof.
  split.
  - apply sorted_by_score_desc_adjacent.
  - intros (filtered & _ & ->)%create_custom_hn_Ok.
    apply sorted_by_score_desc_adjacent.
Qed.

Lemma sort_stories_by_votes_descending_witness :
  adjacent_desc [mkStory "B" "http://b" 500; mkStory "Foo" "http://a" 150].
Proof.
  apply (sort_stories_by_votes_descending []
           [story_link "Foo" "http://a"; story_link "B" "http://b"]
           [story_subtext "150 points"; story_subtext "500 points"]).
  vm_compute. reflexivity.
Defined.

(** C3, stability.  Sorting keeps records of equal score in their input
    order: for every score, the records carrying it come out in the
    sequence they went in; in particular a record that stands before
    another one of the same score in the input stands before it in the
    output. *)
Theorem sort_stories_by_votes_stable (stories : list Story) :
  (∀ k, with_score k (sort_stories_by_votes stories) = with_score k stories) ∧
  (∀ l1 x l2 y l3,
     stories = l1 ++ x :: l2 ++ y :: l3 → Score x = Score y →
     ∃ m1 m2 m3, sort_stories_by_votes stories = m1 ++ x :: m2 ++ y :: m3).
Proof.
  split; [intros k; apply sorted_by_score_desc_with_score|].
  intros l1 x l2 y l3 -> Hxy.
  pose proof (sorted_by_score_desc_with_score (Score x)
                (l1 ++ x :: l2 ++ y :: l3)) as H.
  unfold with_score at 2 in H.
  rewrite filter_app, filter_cons_True, filter_app, filter_cons_True in H
    by done.
  apply with_score_split in H as (m1 & r & Hm & _ & Hr).
  apply with_score_split in Hr as (m2 & m3 & -> & _ & _).
  by exists m1, m2, m3.
Qed.

Lemma sort_stories_by_votes_stable_witness :
  ∃ m1 m2 m3,
    sort_stories_by_votes
      [mkStory "low" "http://l" 120; mkStory "X" "http://x" 500;
       mkStory "top" "http://t" 900; mkStory "Y" "http://y" 500] =
    m1 ++ mkStory "X" "http://x" 500 :: m2 ++ mkStory "Y" "http://y" 500 :: m3.
Proof.
  apply (proj2 (sort_stories_by_votes_stable _)
           [mkStory "low" "http://l" 120] _ [mkStory "top" "http://t" 900] _ []);
    reflexivity.
Defined.

(** C10, frame.  [sort_stories_by_votes] returns a reference to a new list
    object that holds the sorted records; the list object it was given,
    and every other one, holds after the call what it held before. *)
Theorem sort_stories_by_votes_fresh (h : heap) (stories : positive) (l : list Story) :
  h !! stories = Some l →
  ∃ r h',
    sort_stories_by_votes_ref h stories = Some (r, h') ∧
    r ≠ stories ∧ h !! r = None ∧
    h' !! r = Some (sort_stories_by_votes l) ∧
    h' !! stories = Some l ∧
    ∀ q, q ≠ r → h' !! q = h !! q.
Proof.
  intros Hl. unfold sort_stories_by_votes_ref, alloc. rewrite Hl. simpl.
  set (r := fresh (dom h)).
  assert (h !! r = None) as Hr.
  { apply not_elem_of_dom. apply is_fresh. }
  assert (r ≠ stories) as Hne by (intros ->; congruence).
  exists r, (<[r := sort_stories_by_votes l]> h).
  split_and!; try done.
  - by rewrite lookup_insert_eq.
  - by rewrite lookup_insert_ne.
  - intros q Hq. by rewrite lookup_insert_ne.
Qed.

Lemma sort_stories_by_votes_fresh_witness :
  ∃ r h',
    sort_stories_by_votes_ref
      {[ 1%positive := [mkStory "Foo" "http://a" 150; mkStory "B" "http://b" 500] ]}
      1%positive = Some (r, h') ∧
    r ≠ 1%positive ∧
    h' !! 1%positive =
      Some [mkStory "Foo" "http://a" 150; mkStory "B" "http://b" 500].
Proof.
  destruct (sort_stories_by_votes_fresh
              {[ 1%positive :=
                   [mkStory "Foo" "http://a" 150; mkStory "B" "http://b" 500] ]}
              1%positive
              [mkStory "Foo" "http://a" 150; mkStory "B" "http://b" 500])
    as (r & h' & H1 & H2 & _ & _ & H3 & _).
  { reflexivity. }
  exists r, h'. auto.
Defined.

(** C6, scenario A.  A link node whose anchor reads "Foo" and points to
    "http://a", paired with a metadata node whose score text is
    "150 points", yields the record with that title, that href and the
    score 150; run on that pair alone the pipeline returns exactly this
    record, and in a longer run that returns, the record is in the
    output. *)
Theorem scenario_A (link meta a v : Tag) (vs : list Tag) :
  find "a" link = Some a →
  getText a = "Foo" →
  get "href" a = Some "http://a" →
  select_class "score" meta = v :: vs →
  getText v = "150 points" →
  let story := {| Title := "Foo"; href := "http://a"; Score := 150 |} in
  extract_score meta = Ok 150 ∧
  create_story link meta = Ok (Some story) ∧
  create_custom_hn [link] [meta] = Ok [story] ∧
  ∀ links subtext (i : nat) out,
    links !! i = Some link → subtext !! i = Some meta →
    create_custom_hn links subtext = Ok out → story ∈ out.
Proof.
  intros Ha Ht Hh Hv Hs story.
  assert (extract_score meta = Ok 150) as Hscore.
  { by rewrite (extract_score_present _ _ _ Hv), Hs. }
  assert (create_story link meta = Ok (Some story)) as Hstory.
  { rewrite (create_story_scored _ _ _ _ Ha Hh) by done.
    by rewrite Hscore, Ht. }
  split_and!; try done.
  - unfold create_custom_hn. rewrite collect_cons, Hstory. done.
  - intros links subtext i out Hl Hm (filtered & Hc & ->)%create_custom_hn_Ok.
    apply sort_stories_by_votes_elem.
    by apply (collect_elem links subtext [] filtered i link meta).
Qed.

Lemma scenario_A_witness :
  create_custom_hn [story_link "Foo" "http://a"] [story_subtext "150 points"] =
    Ok [{| Title := "Foo"; href := "http://a"; Score := 150 |}].
Proof.
  eapply (scenario_A (story_link "Foo" "http://a") (story_subtext "150 points"));
    reflexivity.
Defined.

(** C7, skip.  A link node with no anchor below it, or whose anchor has no
    [href] attribute, makes [create_story] return [None] without raising,
    whatever the metadata node holds; taking the pair out of a run changes
    nothing in what the run returns. *)
Theorem create_story_skips_missing_href (link meta : Tag) :
  find "a" link = None ∨ (∃ a, find "a" link = Some a ∧ get "href" a = None) →
  create_story link meta = Ok None ∧
  ∀ links1 links2 subtext1 subtext2,
    length links1 = length subtext1 →
    create_custom_hn (links1 ++ link :: links2) (subtext1 ++ meta :: subtext2) =
      create_custom_hn (links1 ++ links2) (subtext1 ++ subtext2).
Proof.
  intros H.
  assert (create_story link meta = Ok None) as Hnone.
  { destruct H as [H|(a & Ha & Hh)].
    - by apply create_story_no_anchor.
    - by apply (create_story_no_href _ _ a). }
  split; [done|].
  intros. by apply create_custom_hn_skip.
Qed.

Lemma create_story_skips_missing_href_witness :
  create_story link_without_href (story_subtext "1 point") = Ok None.
Proof.
  apply create_story_skips_missing_href.
  right. eexists. split; reflexivity.
Defined.

(** C8, missing score.  For a metadata node with no element of class
    [score] below it, [extract_score] returns 0; 0 is not above 100, so
    [create_story] returns [None] for every link paired with it, and the
    pair adds nothing to what a run returns. *)
Theorem extract_score_missing_is_zero (meta : Tag) :
  select_class "score" meta = [] →
  extract_score meta = Ok 0 ∧
  (∀ link, create_story link meta = Ok None) ∧
  ∀ link links1 links2 subtext1 subtext2,
    length links1 = length subtext1 →
    create_custom_hn (links1 ++ link :: links2) (subtext1 ++ meta :: subtext2) =
      create_custom_hn (links1 ++ links2) (subtext1 ++ subtext2).
Proof.
  intros Hv.
  pose proof (extract_score_absent _ Hv) as Hscore.
  assert (∀ link, create_story link meta = Ok None) as Hnone.
  { intros link. unfold create_story. rewrite Hscore.
    destruct (find "a" link) as [a|]; [|done].
    destruct (get "href" a) as [h|]; [|done].
    by case_bool_decide. }
  split_and!; try done.
  intros. by apply create_custom_hn_skip.
Qed.

Lemma extract_score_missing_is_zero_witness :
  extract_score subtext_without_score = Ok 0 ∧
  create_custom_hn
    [story_link "Job" "http://j"; story_link "Foo" "http://a"]
    [subtext_without_score; story_subtext "150 points"] =
  create_custom_hn [story_link "Foo" "http://a"] [story_subtext "150 points"].
Proof.
  destruct (extract_score_missing_is_zero subtext_without_score)
    as (H0 & _ & Hskip); [reflexivity|].
  split; [exact H0|].
  exact (Hskip (story_link "Job" "http://j") [] _ [] _ eq_refl).
Defined.

(** C9, empty href.  A link node whose anchor has an [href] attribute
    with the empty string as its value is skipped like one without the
    attribute: [create_story] returns [None], and the pair adds nothing to
    what a run returns. *)
Theorem create_story_skips_empty_href (link meta a : Tag) :
  find "a" link = Some a →
  get "href" a = Some "" →
  create_story link meta = Ok None ∧
  ∀ links1 links2 subtext1 subtext2,
    length links1 = length subtext1 →
    create_custom_hn (links1 ++ link :: links2) (subtext1 ++ meta :: subtext2) =
      create_custom_hn (links1 ++ links2) (subtext1 ++ subtext2).
Proof.
  intros Ha Hh.
  pose proof (create_story_empty_href _ meta _ Ha Hh) as Hnone.
  split; [done|].
  intros. by apply create_custom_hn_skip.
Qed.

Lemma create_story_skips_empty_href_witness :
  create_story (story_link "Foo" "") (story_subtext "150 points") = Ok None.
Proof.
  eapply create_story_skips_empty_href; reflexivity.
Defined.

(** C5, unequal lengths, as stated: refuted.  With two links and one
    metadata node the run raises [IndexError] at the second link, where
    cutting both lists to one element would return a record. *)
Lemma truncation_fails_on_short_subtext :
  ¬ truncates_to_shorter
      [story_link "Foo" "http://a"; story_link "B" "http://b"]
      [story_subtext "150 points"].
Proof. unfold truncates_to_shorter. vm_compute. discriminate. Qed.

(** C5, amended.  When [links] is not the longer list the metadata nodes
    beyond its length are never read, and the run returns what it returns
    on the two lists cut to the length of [links].  When [subtext] is the
    shorter list nothing is cut: the run raises and returns no list, and
    the exception is [IndexError] whenever the pairs that do exist raise
    nothing. *)
Theorem create_custom_hn_length_mismatch (links subtext : list Tag) :
  ((length links ≤ length subtext)%nat → truncates_to_shorter links subtext) ∧
  ((length subtext < length links)%nat →
   (∃ e, create_custom_hn links subtext = Raise e) ∧
   ∀ out,
     create_custom_hn (take (length subtext) links) subtext = Ok out →
     create_custom_hn links subtext = Raise IndexError).
Proof.
  split.
  - intros Hlen. unfold truncates_to_shorter.
    rewrite Nat.min_l by done. rewrite firstn_all.
    unfold create_custom_hn. by rewrite <-collect_take.
  - intros Hlen. split.
    + unfold create_custom_hn.
      destruct (collect_short links subtext [] Hlen) as [e ->]. by exists e.
    + intros out (filtered & Hc & _)%create_custom_hn_Ok.
      unfold create_custom_hn.
      by rewrite (collect_short_index links subtext [] filtered Hlen Hc).
Qed.

Lemma create_custom_hn_length_mismatch_witness :
  truncates_to_shorter
    [story_link "Foo" "http://a"]
    [story_subtext "150 points"; story_subtext "1 point"] ∧
  create_custom_hn
    [story_link "Foo" "http://a"; story_link "B" "http://b"]
    [story_subtext "150 points"] = Raise IndexError.
Proof.
  split.
  - apply create_custom_hn_length_mismatch. simpl. lia.
  - eapply (create_custom_hn_length_mismatch
              [story_link "Foo" "http://a"; story_link "B" "http://b"]
              [story_subtext "150 points"]).
    + simpl. lia.
    + vm_compute. reflexivity.
Defined.

(** C4, parse error, as stated: refuted.  The score text "150" is not of
    the shape "<digits> points", yet [int] accepts it: [extract_score]
    returns 150 and the run returns a record.  And with the text
    "1 point" paired to a link node that has no anchor, [extract_score] is
    never called: the run returns the empty list. *)
Lemma nonconforming_score_need_not_abort :
  ¬ nonconforming_score_aborts
      (story_link "Foo" "http://a") (story_subtext "150") ∧
  ¬ nonconforming_score_aborts
      link_without_anchor (story_subtext "1 point").
Proof.
  split; intros H.
  - destruct (H (mkTag "span" {[ "id" := "score_1" ]} ["score"]
                   [CString "150"]) [])
      as [Hraise _]; [reflexivity | reflexivity |].
    vm_compute in Hraise. discriminate.
  - destruct (H (mkTag "span" {[ "id" := "score_1" ]} ["score"]
                   [CString "1 point"]) [])
      as [_ [e Hrun]]; [reflexivity | reflexivity |].
    vm_compute in Hrun. discriminate.
Qed.

(** C4, amended.  When the score element is present and its text, with
    every occurrence of " points" removed, is not a decimal literal that
    [int] accepts, [extract_score] raises [ValueError].  Nothing catches
    it: paired with a link node whose anchor has a non-empty [href],
    [create_story] raises it too, and a run that holds the pair at some
    index raises and returns no list. *)
Theorem extract_score_value_error
    (links subtext : list Tag) (i : nat) (link meta a v : Tag)
    (vs : list Tag) (h : string) :
  select_class "score" meta = v :: vs →
  int_of_str (replace " points" "" (getText v)) = None →
  extract_score meta = Raise ValueError ∧
  (find "a" link = Some a → get "href" a = Some h → h ≠ "" →
   create_story link meta = Raise ValueError ∧
   (links !! i = Some link → subtext !! i = Some meta →
    ∃ e, create_custom_hn links subtext = Raise e)).
Proof.
  intros Hv Hint.
  assert (extract_score meta = Raise ValueError) as Hscore.
  { rewrite (extract_score_present _ _ _ Hv). unfold int. by rewrite Hint. }
  split; [done|].
  intros Ha Hh Hne.
  assert (create_story link meta = Raise ValueError) as Hstory.
  { rewrite (create_story_scored _ _ _ _ Ha Hh Hne). by rewrite Hscore. }
  split; [done|].
  intros Hl Hm. unfold create_custom_hn.
  destruct (collect_raise links subtext [] i link meta _ Hl Hm Hstory) as [e ->].
  by exists e.
Qed.

Lemma extract_score_value_error_witness :
  extract_score (story_subtext "1 point") = Raise ValueError ∧
  ∃ e, create_custom_hn
         [story_link "B" "http://b"; story_link "Foo" "http://a"]
         [story_subtext "500 points"; story_subtext "1 point"] = Raise e.
Proof.
  destruct (extract_score_value_error
              [story_link "B" "http://b"; story_link "Foo" "http://a"]
              [story_subtext "500 points"; story_subtext "1 point"]
              1 (story_link "Foo" "http://a") (story_subtext "1 point")
              (mkTag "a" {[ "href" := "http://a" ]} [] [CString "Foo"])
              (mkTag "span" {[ "id" := "score_1" ]} ["score"] [CString "1 point"])
              [] "http://a")
    as [Hscore Hrun]; [reflexivity | reflexivity |].
  split; [exact Hscore|].
  apply Hrun; (reflexivity || discriminate).
Defined.

(** ** What a run returns *)

Section runs.

Implicit Types (link meta : Tag) (links subtext : list Tag).
Implicit Types (s : Story) (acc out : list Story).
Implicit Types (stories : list (option Story)).

Lemma omap_id_cons (story : option Story) stories :
  omap id (story :: stories) = option_list story ++ omap id stories.
Proof. by destruct story. Qed.

Lemma pair_results_nil subtext stories :
  pair_results [] subtext stories ↔ stories = [].
Proof.
  unfold pair_results. simpl. split.
  - apply Forall2_nil_inv_l.
  - intros ->. constructor.
Qed.

Lemma pair_results_cons link links meta subtext stories :
  pair_results (link :: links) (meta :: subtext) stories ↔
  ∃ story stories', stories = story :: stories' ∧
                    create_story link meta = Ok story ∧
                    pair_results links subtext stories'.
Proof.
  unfold pair_results. simpl. split.
  - intros (story & stories' & H1 & H2 & ->)%Forall2_cons_inv_l. eauto.
  - intros (story & stories' & -> & H1 & H2). by constructor.
Qed.

Lemma pair_results_length links subtext stories :
  (length links ≤ length subtext)%nat →
  pair_results links subtext stories → length stories = length links.
Proof.
  unfold pair_results. intros Hlen H. apply Forall2_length in H.
  rewrite length_zip in H. lia.
Qed.

(** The loop returns a list exactly when no metadata node is missing and
    every pair returns; the list is then what it started from, followed
    by the records of the pairs in order. *)
Lemma collect_spec links subtext acc out :
  collect 0 links subtext acc = Ok out ↔
  (length links ≤ length subtext)%nat ∧
  ∃ stories, pair_results links subtext stories ∧
             out = acc ++ omap id stories.
Proof.
  revert subtext acc.
  induction links as [|link links IH]; intros subtext acc.
  - simpl. split.
    + intros [= <-]. split; [lia|]. exists []. split; [by apply pair_results_nil|].
      by rewrite app_nil_r.
    + intros (_ & stories & ->%pair_results_nil & ->). by rewrite app_nil_r.
  - destruct subtext as [|meta subtext].
    { split; [done|]. simpl. lia. }
    rewrite collect_cons.
    destruct (create_story link meta) as [story|e] eqn:Hs; simpl.
    + rewrite IH. split.
      * intros (Hlen & stories & Hp & ->). split; [simpl; lia|].
        exists (story :: stories). split.
        { apply pair_results_cons. eauto. }
        by rewrite kept_app, <-app_assoc, omap_id_cons.
      * intros (Hlen & stories & Hp & ->). split; [simpl in Hlen; lia|].
        apply pair_results_cons in Hp as (story' & stories' & -> & Hs' & Hp).
        rewrite Hs in Hs'. injection Hs' as <-. exists stories'.
        split; [done|]. by rewrite kept_app, <-app_assoc, omap_id_cons.
    + split; [done|].
      intros (_ & stories & Hp & _).
      apply pair_results_cons in Hp as (? & ? & _ & ? & _). congruence.
Qed.

Lemma pair_results_lookup links subtext stories (i : nat) link meta :
  pair_results links subtext stories →
  links !! i = Some link → subtext !! i = Some meta →
  ∃ story, stories !! i = Some story ∧ create_story link meta = Ok story.
Proof.
  unfold pair_results. intros H Hl Hm.
  assert (zip links subtext !! i = Some (link, meta)) as Hz.
  { rewrite lookup_zip_with. by rewrite Hl, Hm. }
  destruct (Forall2_lookup_l _ _ _ _ _ H Hz) as (story & Hs & Hc). eauto.
Qed.

Lemma pair_results_lookup_r links subtext stories (i : nat) story :
  pair_results links subtext stories →
  stories !! i = Some story →
  ∃ link meta, links !! i = Some link ∧ subtext !! i = Some meta ∧
               create_story link meta = Ok story.
Proof.
  unfold pair_results. intros H Hs.
  destruct (Forall2_lookup_r _ _ _ _ _ H Hs) as ([link meta] & Hz & Hc).
  rewrite lookup_zip_with in Hz.
  destruct (links !! i) as [l|] eqn:Hl; [|done].
  destruct (subtext !! i) as [m|] eqn:Hm; [|done].
  simpl in Hz. simplify_eq. eauto.
Qed.

Lemma elem_of_omap_id stories s :
  s ∈ omap id stories ↔ ∃ i : nat, stories !! i = Some (Some s).
Proof.
  rewrite list_elem_of_omap. split.
  - intros (story & Hin & Hs). simpl in Hs. subst.
    apply list_elem_of_lookup in Hin as [i Hi]. by exists i.
  - intros [i Hi]. exists (Some s). split; [|done].
    apply list_elem_of_lookup. by exists i.
Qed.

Lemma length_omap_id stories : (length (omap id stories) ≤ length stories)%nat.
Proof.
  induction stories as [|story stories IH]; [done|].
  rewrite omap_id_cons, length_app. destruct story; simpl; lia.
Qed.

End runs.

(** ** When [create_story] and the loop raise *)

Section raising.

Implicit Types (link meta a v : Tag) (links subtext : list Tag).
Implicit Types (s : Story) (acc out : list Story) (e : exn).

Lemma extract_score_Raise meta e :
  extract_score meta = Raise e ↔
  e = ValueError ∧
  ∃ v vs, select_class "score" meta = v :: vs ∧
          int_of_str (replace " points" "" (getText v)) = None.
Proof.
  unfold extract_score, int.
  destruct (select_class "score" meta) as [|v vs].
  - split; [done|]. by intros (_ & ? & ? & ? & _).
  - destruct (int_of_str _) as [n|] eqn:Hn.
    + split; [done|]. intros (_ & ? & ? & ? & Hn'). simplify_eq.
    + split.
      * intros [= <-]. split; [done|]. by exists v, vs.
      * by intros [-> _].
Qed.

Lemma create_story_Raise link meta e :
  create_story link meta = Raise e ↔
  ∃ a h, find "a" link = Some a ∧ get "href" a = Some h ∧ h ≠ "" ∧
         extract_score meta = Raise e.
Proof.
  unfold create_story.
  destruct (find "a" link) as [a|]; [|split; [done | by intros (?&?&?&_)]].
  destruct (get "href" a) as [h|] eqn:Hh;
    [|split; [done | intros (?&?&?&?&_); simplify_eq]].
  case_bool_decide as Hne.
  { split; [done|]. intros (?&?&?&?&?&_). simplify_eq. }
  destruct (extract_score meta) as [n|e'] eqn:Hn; simpl.
  - split; [done|]. by intros (?&?&_&_&_&?).
  - split.
    + intros [= <-]. by exists a, h.
    + by intros (?&?&_&_&_&[= ->]).
Qed.

Lemma returns_before_0 links subtext : returns_before 0 links subtext.
Proof. intros j l m Hj. lia. Qed.

Lemma returns_before_cons (i : nat) link meta links subtext :
  returns_before (S i) (link :: links) (meta :: subtext) ↔
  (∃ r, create_story link meta = Ok r) ∧ returns_before i links subtext.
Proof.
  split.
  - intros H. split.
    + apply (H 0%nat); [lia|done..].
    + intros j l m Hj Hl Hm. apply (H (S j)); [lia|done..].
  - intros [H0 H] [|j] l m Hj Hl Hm; simpl in *.
    + by simplify_eq.
    + apply (H j); [lia|done..].
Qed.

(** What the loop's exception tells. *)
Lemma collect_Raise_inv links subtext acc e :
  collect 0 links subtext acc = Raise e →
  (e = IndexError ∧ (length subtext < length links)%nat ∧
   returns_before (length subtext) links subtext) ∨
  (∃ (i : nat) link meta,
     links !! i = Some link ∧ subtext !! i = Some meta ∧
     create_story link meta = Raise e ∧ returns_before i links subtext).
Proof.
  revert subtext acc.
  induction links as [|link links IH]; intros subtext acc H; [done|].
  destruct subtext as [|meta subtext].
  { left. simpl in H. simplify_eq. split_and!; [done|simpl; lia|].
    apply returns_before_0. }
  rewrite collect_cons in H.
  destruct (create_story link meta) as [story|e'] eqn:Hs; simpl in H.
  - destruct (IH _ _ H) as [(-> & Hlen & Hr)|(i & l & m & Hl & Hm & Hc & Hr)].
    + left. split_and!; [done|simpl; lia|].
      apply returns_before_cons. eauto.
    + right. exists (S i), l, m. split_and!; [done..|].
      apply returns_before_cons. eauto.
  - right. simplify_eq. exists 0%nat, link, meta. split_and!; [done..|].
    apply returns_before_0.
Qed.

(** The first pair that raises decides the loop's exception. *)
Lemma collect_first_raise links subtext acc (i : nat) link meta e :
  links !! i = Some link → subtext !! i = Some meta →
  create_story link meta = Raise e →
  returns_before i links subtext →
  collect 0 links subtext acc = Raise e.
Proof.
  revert subtext acc i.
  induction links as [|l0 links IH]; intros subtext acc i Hl Hm He Hr; [done|].
  destruct subtext as [|m0 subtext]; [done|].
  rewrite collect_cons. destruct i as [|i]; simpl in Hl, Hm.
  - simplify_eq. by rewrite He.
  - apply returns_before_cons in Hr as [[r ->] Hr]. simpl.
    by apply (IH subtext _ i).
Qed.

Lemma collect_index_error links subtext acc :
  (length subtext < length links)%nat →
  returns_before (length subtext) links subtext →
  collect 0 links subtext acc = Raise IndexError.
Proof.
  revert subtext acc.
  induction links as [|l0 links IH]; intros subtext acc Hlen Hr;
    simpl in Hlen; [lia|].
  destruct subtext as [|m0 subtext]; [done|].
  rewrite collect_cons. simpl in Hr, Hlen.
  apply returns_before_cons in Hr as [[r ->] Hr]. simpl.
  apply IH; [lia|done].
Qed.

Lemma create_custom_hn_Raise links subtext e :
  create_custom_hn links subtext = Raise e ↔
  collect 0 links subtext [] = Raise e.
Proof.
  unfold create_custom_hn.
  by destruct (collect 0 links subtext []).
Qed.

End raising.

(** ** More on the sort, the loop and the score text *)

Section more.

Implicit Types (link meta a v : Tag) (links subtext : list Tag).
Implicit Types (s x y : Story) (l acc out : list Story).

Lemma with_score_app k l1 l2 :
  with_score k (l1 ++ l2) = with_score k l1 ++ with_score k l2.
Proof. unfold with_score. apply filter_app. Qed.

Lemma sorted_by_score_desc_fixed l :
  adjacent_desc l → sorted_by_score_desc l = l.
Proof. intros Hl. symmetry. by apply sorted_by_score_desc_unique. Qed.

(** In a descending list no record has a higher score than one before
    it, however far apart the two stand. *)
Lemma adjacent_desc_lookup_le l (i j : nat) x y :
  adjacent_desc l → (i ≤ j)%nat →
  l !! i = Some x → l !! j = Some y → Score y ≤ Score x.
Proof.
  revert i j. induction l as [|z l IH]; intros i j Hl Hij Hi Hj; [done|].
  destruct i as [|i]; simpl in Hi.
  - simplify_eq. destruct j as [|j]; simpl in Hj; [by simplify_eq|].
    apply (adjacent_desc_head_max x l Hl). apply list_elem_of_lookup. eauto.
  - destruct j as [|j]; [lia|]. simpl in Hj.
    apply (IH i j); [by apply (adjacent_desc_tail z)|lia|done..].
Qed.

(** Sorting two sorted parts put end to end sorts the whole. *)
Lemma sorted_by_score_desc_app l1 l2 :
  sorted_by_score_desc (sorted_by_score_desc l1 ++ sorted_by_score_desc l2) =
    sorted_by_score_desc (l1 ++ l2).
Proof.
  apply adjacent_desc_determined; try apply sorted_by_score_desc_adjacent.
  intros k.
  by rewrite !sorted_by_score_desc_with_score, !with_score_app,
       !sorted_by_score_desc_with_score.
Qed.

(** Two records of one score keep their order through the sort. *)
Lemma sorted_by_score_desc_keeps_order l1 x l2 y l3 :
  Score x = Score y →
  ∃ m1 m2 m3,
    sorted_by_score_desc (l1 ++ x :: l2 ++ y :: l3) = m1 ++ x :: m2 ++ y :: m3.
Proof.
  intros Hxy.
  pose proof (sorted_by_score_desc_with_score (Score x)
                (l1 ++ x :: l2 ++ y :: l3)) as H.
  rewrite with_score_app, with_score_head, with_score_app in H.
  rewrite Hxy, with_score_head, <-Hxy in H.
  apply with_score_split in H as (m1 & r & Hm & _ & Hr).
  apply with_score_split in Hr as (m2 & m3 & -> & _ & _).
  by exists m1, m2, m3.
Qed.

(** The loop on two lists put end to end runs the first part, then the
    second. *)
Lemma collect_app links1 links2 subtext1 subtext2 acc :
  length links1 = length subtext1 →
  collect 0 (links1 ++ links2) (subtext1 ++ subtext2) acc =
    acc' ← collect 0 links1 subtext1 acc; collect 0 links2 subtext2 acc'.
Proof.
  revert subtext1 acc.
  induction links1 as [|l0 links1 IH]; intros [|m0 subtext1] acc Hlen;
    try discriminate Hlen; [done|].
  rewrite <-!app_comm_cons, !collect_cons.
  destruct (create_story l0 m0) as [story|e]; simpl; [|done].
  apply IH. by injection Hlen.
Qed.

(** Records found at two positions of the per-pair results stand in that
    order among the records kept. *)
Lemma omap_id_two (stories : list (option Story)) (i j : nat) x y :
  (i < j)%nat →
  stories !! i = Some (Some x) → stories !! j = Some (Some y) →
  ∃ l1 l2 l3, omap id stories = l1 ++ x :: l2 ++ y :: l3.
Proof.
  intros Hij Hi Hj.
  rewrite <-(take_drop_middle stories i (Some x) Hi).
  assert (drop (S i) stories !! (j - S i)%nat = Some (Some y)) as Hj'.
  { rewrite lookup_drop. by replace (S i + (j - S i))%nat with j by lia. }
  rewrite <-(take_drop_middle _ _ _ Hj').
  rewrite omap_app, omap_id_cons, omap_app, omap_id_cons. simpl.
  eauto.
Qed.

Lemma digit_char_value d :
  0 ≤ d ≤ 9 → digit_value (digit_char d) = Some d.
Proof.
  intros Hd.
  assert (d = 0 ∨ d = 1 ∨ d = 2 ∨ d = 3 ∨ d = 4 ∨
          d = 5 ∨ d = 6 ∨ d = 7 ∨ d = 8 ∨ d = 9) as H by lia.
  destruct_or!; subst d; reflexivity.
Qed.

Lemma digit_char_is_digit d : 0 ≤ d ≤ 9 → is_digit (digit_char d) = true.
Proof. intros Hd. unfold is_digit. by rewrite digit_char_value. Qed.

Lemma digits_text_all_digits (ds : list Z) :
  Forall (λ d, 0 ≤ d ≤ 9) ds → all_digits (digits_text ds) = true.
Proof.
  induction 1 as [|d ds Hd _ IH]; simpl; [done|].
  by rewrite digit_char_is_digit, IH.
Qed.

Lemma digits_text_length (ds : list Z) :
  String.length (digits_text ds) = length ds.
Proof. induction ds as [|d ds IH]; simpl; by rewrite ?IH. Qed.

Lemma scan_digits_text (ds : list Z) (k n : Z) :
  Forall (λ d, 0 ≤ d ≤ 9) ds →
  scan_digits false k n (digits_text ds) =
    Some (foldl (λ z d, 10 * z + d) k ds, n + Z.of_nat (length ds), "").
Proof.
  intros Hds. revert k n.
  induction Hds as [|d ds Hd _ IH]; intros k n; simpl.
  - by rewrite Z.add_0_r.
  - rewrite (digit_char_value d Hd), IH. do 3 f_equal. lia.
Qed.

(** A run of digits holds no label to remove. *)
Lemma replace_digits d :
  all_digits d = true → replace " points" "" d = d.
Proof.
  unfold replace. induction d as [|c d IH]; intros Hd; [done|].
  simpl in Hd. apply andb_prop in Hd as [Hc Hd].
  cbv fix beta iota delta [replace_from]. fold replace_from.
  rewrite (prefix_points_digit c _ Hc). by rewrite IH.
Qed.

Lemma int_of_digits_text (ds : list Z) :
  Forall (λ d, 0 ≤ d ≤ 9) ds → ds ≠ [] → (length ds ≤ 4300)%nat →
  int (digits_text ds) = Ok (decimal ds).
Proof.
  intros Hds Hne Hlen. destruct ds as [|d ds]; [done|].
  pose proof (Forall_inv Hds) as Hd.
  unfold int. change (digits_text (d :: ds))
    with (String (digit_char d) (digits_text ds)).
  rewrite (int_of_str_digit_head _ _ (digit_char_is_digit d Hd)).
  change (String (digit_char d) (digits_text ds))
    with (digits_text (d :: ds)).
  rewrite (scan_digits_text _ 0 0 Hds).
  destruct (Z.eqb_spec (0 + Z.of_nat (length (d :: ds))) 0) as [H0|_].
  { simpl in H0. lia. }
  simpl lstrip. unfold int_max_str_digits.
  destruct (Z.ltb_spec 4300 (0 + Z.of_nat (length (d :: ds)))); [lia|].
  unfold decimal. do 2 f_equal. lia.
Qed.

Lemma find_first_child nm n at_ cl a rest :
  name a = nm → find nm (mkTag n at_ cl (CTag a :: rest)) = Some a.
Proof.
  intros Ha. unfold find. simpl. by rewrite filter_cons_True.
Qed.

(** The elements below a tag are those at or below its children, child
    by child. *)
Lemma descendants_children n at_ cl (ts : list Tag) :
  descendants (mkTag n at_ cl (CTag <$> ts)) =
    flat_map (λ t, t :: descendants t) ts.
Proof.
  induction ts as [|t ts IH]; [done|].
  change (descendants (mkTag n at_ cl (CTag <$> t :: ts)))
    with (t :: descendants t ++ descendants (mkTag n at_ cl (CTag <$> ts))).
  by rewrite IH.
Qed.

Lemma select_class_children cls n at_ cl (ts : list Tag) :
  select_class cls (mkTag n at_ cl (CTag <$> ts)) = flat_map (nodes_in cls) ts.
Proof.
  unfold select_class. rewrite descendants_children.
  induction ts as [|t ts IH]; simpl; [done|].
  rewrite filter_cons, filter_app, IH. unfold nodes_in, select_class.
  case_decide; by rewrite <-?app_assoc.
Qed.

Lemma flat_map_concat {A B} (f : A → list B) (groups : list (list A)) :
  flat_map f (concat groups) = concat (flat_map f <$> groups).
Proof.
  induction groups as [|g groups IH]; simpl; [done|].
  by rewrite flat_map_app, IH.
Qed.

Lemma concat_singletons {A B} (f : A → list B) (gs : list A) (ts : list B) :
  Forall2 (λ g t, f g = [t]) gs ts → concat (f <$> gs) = ts.
Proof.
  induction 1 as [|g t gs ts Hgt _ IH]; [done|].
  rewrite fmap_cons. simpl concat. by rewrite Hgt, IH.
Qed.

End more.

(** ** Further properties of the script *)

(** X1, the sort loses nothing.  The list [sort_stories_by_votes] returns
    holds the records of its input, each as often as the input does, and
    so has the input's length. *)
Theorem sort_stories_by_votes_permutation (stories : list Story) :
  sort_stories_by_votes stories ≡ₚ stories ∧
  length (sort_stories_by_votes stories) = length stories.
Proof.
  pose proof (sorted_by_score_desc_perm stories) as H.
  split; [done|]. by apply Permutation_length.
Qed.

(** X2, the sort on sorted input.  A list already in descending order of
    score comes back as it is, so sorting twice is sorting once. *)
Theorem sort_stories_by_votes_idempotent (stories : list Story) :
  (adjacent_desc stories → sort_stories_by_votes stories = stories) ∧
  sort_stories_by_votes (sort_stories_by_votes stories) =
    sort_stories_by_votes stories.
Proof.
  split.
  - apply sorted_by_score_desc_fixed.
  - apply sorted_by_score_desc_fixed, sorted_by_score_desc_adjacent.
Qed.

Lemma sort_stories_by_votes_idempotent_witness :
  sort_stories_by_votes
    [mkStory "B" "http://b" 500; mkStory "C" "http://c" 500;
     mkStory "Foo" "http://a" 150] =
  [mkStory "B" "http://b" 500; mkStory "C" "http://c" 500;
   mkStory "Foo" "http://a" 150].
Proof.
  apply sort_stories_by_votes_idempotent.
  apply adjacent_desc_cons. split; [simpl; lia|].
  apply adjacent_desc_cons. split; [simpl; lia|].
  apply adjacent_desc_one.
Defined.

(** X3, what the sort returns.  The result of [sort_stories_by_votes] is
    the one list that is in descending order of score and holds, for
    every score, the input's records of that score in the input's
    order. *)
Theorem sort_stories_by_votes_characterised (stories ranked : list Story) :
  ranked = sort_stories_by_votes stories ↔
  adjacent_desc ranked ∧
  ∀ k, with_score k ranked = with_score k stories.
Proof.
  split.
  - intros ->. split.
    + apply sorted_by_score_desc_adjacent.
    + intros k. apply sorted_by_score_desc_with_score.
  - intros [Hd Hk]. by apply sorted_by_score_desc_unique.
Qed.

(** X18, the order at a distance.  In the list [sort_stories_by_votes]
    returns, and in any list [create_custom_hn] returns, a record never
    has a higher score than a record anywhere before it; the first record
    has the highest score of all. *)
Theorem sort_stories_by_votes_ranked
    (stories : list Story) (links subtext : list Tag) (out : list Story)
    (i j : nat) (x y : Story) :
  out = sort_stories_by_votes stories ∨ create_custom_hn links subtext = Ok out →
  (i ≤ j)%nat → out !! i = Some x → out !! j = Some y →
  Score y ≤ Score x.
Proof.
  intros Hout. apply adjacent_desc_lookup_le.
  destruct Hout as [->|(filtered & _ & ->)%create_custom_hn_Ok];
    apply sorted_by_score_desc_adjacent.
Qed.

Lemma sort_stories_by_votes_ranked_witness : 150 ≤ 900.
Proof.
  apply (sort_stories_by_votes_ranked
           [mkStory "Foo" "http://a" 150; mkStory "X" "http://x" 500;
            mkStory "top" "http://t" 900] [] []
           [mkStory "top" "http://t" 900; mkStory "X" "http://x" 500;
            mkStory "Foo" "http://a" 150]
           0 2 (mkStory "top" "http://t" 900) (mkStory "Foo" "http://a" 150));
    [left; reflexivity | lia | reflexivity | reflexivity].
Defined.

(** X4, when [create_story] raises.  [create_story] raises only
    [ValueError], and exactly when the link node has an anchor with a
    non-empty [href], the metadata node has a score element, and [int]
    rejects that element's text with every " points" removed. *)
Theorem create_story_raises_iff (link meta : Tag) (e : exn) :
  create_story link meta = Raise e ↔
  e = ValueError ∧
  ∃ a h v vs,
    find "a" link = Some a ∧ get "href" a = Some h ∧ h ≠ "" ∧
    select_class "score" meta = v :: vs ∧
    int_of_str (replace " points" "" (getText v)) = None.
Proof.
  rewrite create_story_Raise. split.
  - intros (a & h & Ha & Hh & Hne & (-> & v & vs & Hv & Hi)%extract_score_Raise).
    split; [done|]. by exists a, h, v, vs.
  - intros (-> & a & h & v & vs & Ha & Hh & Hne & Hv & Hi).
    exists a, h. split_and!; [done..|].
    apply extract_score_Raise. split; [done|]. by exists v, vs.
Qed.

(** X5, when [create_story] builds a record.  [create_story] returns a
    record exactly when the link node has an anchor with a non-empty
    [href] and [extract_score] returns a score above 100; the record's
    title is the anchor's text, its href the attribute's value and its
    score the extracted one. *)
Theorem create_story_record_iff (link meta : Tag) (s : Story) :
  create_story link meta = Ok (Some s) ↔
  ∃ a, find "a" link = Some a ∧ Title s = getText a ∧
       get "href" a = Some (href s) ∧ href s ≠ "" ∧
       extract_score meta = Ok (Score s) ∧ 100 < Score s.
Proof.
  split.
  - intros (a & h & Ha & Hh & Hne & Hn & Hlt & Hs)%create_story_Some.
    exists a. rewrite Hs. simpl. by rewrite Hs in Hn, Hlt.
  - intros (a & Ha & Ht & Hh & Hne & Hn & Hlt).
    rewrite (create_story_scored _ _ _ _ Ha Hh Hne), Hn. simpl.
    destruct (Z.ltb_spec 100 (Score s)); [|lia].
    destruct s. simpl in *. by subst.
Qed.

(** X6, when [create_story] returns [None].  [create_story] returns
    [None] exactly when the link node has no anchor, or its first anchor
    has no [href] or an empty one, or [extract_score] returns a score of
    100 or less; a score of exactly 100 is below the bar. *)
Theorem create_story_none_iff (link meta : Tag) :
  create_story link meta = Ok None ↔
  find "a" link = None ∨
  (∃ a, find "a" link = Some a ∧
        (get "href" a = None ∨ get "href" a = Some "")) ∨
  (∃ n, extract_score meta = Ok n ∧ n ≤ 100).
Proof.
  unfold create_story.
  destruct (find "a" link) as [a|]; [|by split; [left|]].
  destruct (get "href" a) as [h|] eqn:Hh.
  2:{ split; [|done]. intros _. right. left. exists a. by split; [|left]. }
  case_bool_decide as Hne.
  { subst h. split; [|done]. intros _. right. left. exists a.
    by split; [|right]. }
  destruct (extract_score meta) as [n|e] eqn:Hn; simpl.
  - destruct (Z.ltb_spec 100 n).
    + split; [done|].
      intros [?|[(a' & ? & [?|?])|(n' & ? & ?)]]; simplify_eq. lia.
    + split; [|done]. intros _. right. right. by exists n.
  - split; [done|].
    intros [?|[(a' & ? & [?|?])|(n' & ? & ?)]]; simplify_eq.
Qed.

(** X7, what a run returns.  [create_custom_hn] returns a list exactly
    when [subtext] is at least as long as [links] and [create_story]
    returns for every pair; the list is then the records of the pairs,
    taken in order and sorted. *)
Theorem create_custom_hn_functional (links subtext : list Tag) (out : list Story) :
  create_custom_hn links subtext = Ok out ↔
  (length links ≤ length subtext)%nat ∧
  ∃ stories, pair_results links subtext stories ∧
             out = sort_stories_by_votes (omap id stories).
Proof.
  split.
  - intros (filtered & (Hlen & stories & Hp & ->)%collect_spec & ->)%create_custom_hn_Ok.
    split; [done|]. by exists stories.
  - intros (Hlen & stories & Hp & ->). unfold create_custom_hn.
    assert (collect 0 links subtext [] = Ok (omap id stories)) as ->; [|done].
    apply collect_spec. split; [done|]. by exists stories.
Qed.

(** X8, the records of a run.  When [create_custom_hn] returns a list, a
    record is in it exactly when [create_story] builds it from the link
    and the metadata node at some common index; the list is no longer
    than [links]. *)
Theorem create_custom_hn_records (links subtext : list Tag) (out : list Story) :
  create_custom_hn links subtext = Ok out →
  (∀ s, s ∈ out ↔
        ∃ (i : nat) link meta,
          links !! i = Some link ∧ subtext !! i = Some meta ∧
          create_story link meta = Ok (Some s)) ∧
  (length out ≤ length links)%nat.
Proof.
  intros (filtered & (Hlen & stories & Hp & ->)%collect_spec & ->)%create_custom_hn_Ok.
  simpl. split.
  - intros s. rewrite sort_stories_by_votes_elem, elem_of_omap_id. split.
    + intros [i Hi].
      destruct (pair_results_lookup_r _ _ _ _ _ Hp Hi) as (link & meta & ?).
      by exists i, link, meta.
    + intros (i & link & meta & Hl & Hm & Hs).
      destruct (pair_results_lookup _ _ _ _ _ _ Hp Hl Hm) as (story & Hi & Hs').
      exists i. congruence.
  - unfold sort_stories_by_votes.
    rewrite (Permutation_length (sorted_by_score_desc_perm _)).
    rewrite <-(pair_results_length _ _ _ Hlen Hp). apply length_omap_id.
Qed.

Lemma create_custom_hn_records_witness :
  (length [mkStory "B" "http://b" 500; mkStory "Foo" "http://a" 150] ≤ 3)%nat.
Proof.
  apply (create_custom_hn_records
           [story_link "Foo" "http://a"; story_link "Low" "http://l";
            story_link "B" "http://b"]
           [story_subtext "150 points"; story_subtext "99 points";
            story_subtext "500 points"]).
  vm_compute. reflexivity.
Defined.

(** X9, when a run returns.  [create_custom_hn] returns a list exactly
    when [subtext] is at least as long as [links] and [create_story]
    raises for no pair. *)
Theorem create_custom_hn_returns_iff (links subtext : list Tag) :
  (∃ out, create_custom_hn links subtext = Ok out) ↔
  (length links ≤ length subtext)%nat ∧
  returns_before (length links) links subtext.
Proof.
  split.
  - intros [out (filtered & (Hlen & stories & Hp & _)%collect_spec & _)%create_custom_hn_Ok].
    split; [done|]. intros j l m _ Hl Hm.
    destruct (pair_results_lookup _ _ _ _ _ _ Hp Hl Hm) as (story & _ & Hs).
    by exists story.
  - intros [Hlen Hr]. unfold create_custom_hn.
    destruct (collect 0 links subtext []) as [filtered|e] eqn:Hc; simpl.
    { by eexists. }
    apply collect_Raise_inv in Hc
      as [(_ & Hlt & _)|(i & link & meta & Hl & Hm & He & _)]; [lia|].
    destruct (Hr i link meta) as [r Hs]; [|done..|congruence].
    by apply lookup_lt_Some in Hl.
Qed.

(** X10, [IndexError].  [create_custom_hn] raises [IndexError] exactly
    when [subtext] is shorter than [links] and [create_story] raises for
    none of the pairs that exist. *)
Theorem create_custom_hn_index_error_iff (links subtext : list Tag) :
  create_custom_hn links subtext = Raise IndexError ↔
  (length subtext < length links)%nat ∧
  returns_before (length subtext) links subtext.
Proof.
  rewrite create_custom_hn_Raise. split.
  - intros [(_ & Hlt & Hr)|(i & link & meta & _ & _ & He & _)]%collect_Raise_inv;
      [done|].
    apply create_story_Raise in He as (_ & _ & _ & _ & _ & He).
    by apply extract_score_Raise in He as [? _].
  - intros [Hlt Hr]. by apply collect_index_error.
Qed.

(** X11, [ValueError].  [create_custom_hn] raises [ValueError] exactly
    when [create_story] raises it for some pair and returns for every
    pair before that one: the first pair to raise ends the run, and no
    later pair is looked at. *)
Theorem create_custom_hn_value_error_iff (links subtext : list Tag) :
  create_custom_hn links subtext = Raise ValueError ↔
  ∃ (i : nat) link meta,
    links !! i = Some link ∧ subtext !! i = Some meta ∧
    create_story link meta = Raise ValueError ∧
    returns_before i links subtext.
Proof.
  rewrite create_custom_hn_Raise. split.
  - intros [(? & _)|H]%collect_Raise_inv; [done|]. exact H.
  - intros (i & link & meta & Hl & Hm & He & Hr).
    by apply (collect_first_raise links subtext [] i link meta).
Qed.

(** X12, runs compose.  Splitting both lists at one position, running
    [create_custom_hn] on the two parts and sorting the two results put
    end to end gives what the run on the whole lists gives, exceptions
    included. *)
Theorem create_custom_hn_app (links1 links2 subtext1 subtext2 : list Tag) :
  length links1 = length subtext1 →
  create_custom_hn (links1 ++ links2) (subtext1 ++ subtext2) =
    out1 ← create_custom_hn links1 subtext1;
    out2 ← create_custom_hn links2 subtext2;
    Ok (sort_stories_by_votes (out1 ++ out2)).
Proof.
  intros Hlen. unfold create_custom_hn. rewrite (collect_app _ _ _ _ _ Hlen).
  destruct (collect 0 links1 subtext1 []) as [f1|e]; simpl; [|done].
  rewrite collect_acc.
  destruct (collect 0 links2 subtext2 []) as [f2|e]; simpl; [|done].
  unfold sort_stories_by_votes. by rewrite sorted_by_score_desc_app.
Qed.

Lemma create_custom_hn_app_witness :
  create_custom_hn
    ([story_link "Foo" "http://a"] ++ [story_link "B" "http://b"])
    ([story_subtext "150 points"] ++ [story_subtext "500 points"]) =
  out1 ← create_custom_hn [story_link "Foo" "http://a"] [story_subtext "150 points"];
  out2 ← create_custom_hn [story_link "B" "http://b"] [story_subtext "500 points"];
  Ok (sort_stories_by_votes (out1 ++ out2)).
Proof. apply create_custom_hn_app. reflexivity. Defined.

(** X13, ties follow the page.  When two pairs yield records of equal
    score, the record of the pair that comes first in the lists comes
    first in the list [create_custom_hn] returns. *)
Theorem create_custom_hn_page_order
    (links subtext : list Tag) (out : list Story) (i j : nat)
    (link1 meta1 link2 meta2 : Tag) (x y : Story) :
  (i < j)%nat →
  links !! i = Some link1 → subtext !! i = Some meta1 →
  links !! j = Some link2 → subtext !! j = Some meta2 →
  create_story link1 meta1 = Ok (Some x) →
  create_story link2 meta2 = Ok (Some y) →
  Score x = Score y →
  create_custom_hn links subtext = Ok out →
  ∃ o1 o2 o3, out = o1 ++ x :: o2 ++ y :: o3.
Proof.
  intros Hij Hl1 Hm1 Hl2 Hm2 Hx Hy Hxy
    (filtered & (_ & stories & Hp & ->)%collect_spec & ->)%create_custom_hn_Ok.
  destruct (pair_results_lookup _ _ _ _ _ _ Hp Hl1 Hm1) as (s1 & Hi & Hs1).
  destruct (pair_results_lookup _ _ _ _ _ _ Hp Hl2 Hm2) as (s2 & Hj & Hs2).
  rewrite Hx in Hs1. rewrite Hy in Hs2. simplify_eq.
  destruct (omap_id_two stories i j x y Hij Hi Hj) as (l1 & l2 & l3 & ->).
  simpl. by apply sorted_by_score_desc_keeps_order.
Qed.

Lemma create_custom_hn_page_order_witness :
  ∃ o1 o2 o3,
    [mkStory "top" "http://t" 900; mkStory "X" "http://x" 500;
     mkStory "Y" "http://y" 500] =
    o1 ++ mkStory "X" "http://x" 500 :: o2 ++ mkStory "Y" "http://y" 500 :: o3.
Proof.
  apply (create_custom_hn_page_order
           [story_link "X" "http://x"; story_link "top" "http://t";
            story_link "Y" "http://y"]
           [story_subtext "500 points"; story_subtext "900 points";
            story_subtext "500 points"]
           _ 0 2
           (story_link "X" "http://x") (story_subtext "500 points")
           (story_link "Y" "http://y") (story_subtext "500 points"));
    (lia || reflexivity).
Defined.

(** X14, the score's value.  When the first score element reads as a run
    of one to 4300 decimal digits, followed by " points" or by nothing,
    [extract_score] returns the number those digits write in base 10. *)
Theorem extract_score_decimal (meta v : Tag) (vs : list Tag) (ds : list Z) :
  select_class "score" meta = v :: vs →
  Forall (λ d, 0 ≤ d ≤ 9) ds → ds ≠ [] → (length ds ≤ 4300)%nat →
  getText v = digits_text ds +:+ " points" ∨ getText v = digits_text ds →
  extract_score meta = Ok (decimal ds).
Proof.
  intros Hv Hds Hne Hlen Ht.
  rewrite (extract_score_present _ _ _ Hv).
  pose proof (digits_text_all_digits ds Hds) as Hall.
  destruct Ht as [-> | ->].
  - rewrite (replace_digits_points _ Hall). by apply int_of_digits_text.
  - rewrite (replace_digits _ Hall). by apply int_of_digits_text.
Qed.

Lemma extract_score_decimal_witness :
  extract_score (story_subtext "1024 points") = Ok 1024.
Proof.
  apply (extract_score_decimal (story_subtext "1024 points")
           (mkTag "span" {[ "id" := "score_1" ]} ["score"]
              [CString "1024 points"]) [] [1; 0; 2; 4]).
  - reflexivity.
  - repeat constructor; lia.
  - discriminate.
  - simpl. lia.
  - left. reflexivity.
Defined.

(** X15, the first anchor counts.  For a link node whose first child is
    an anchor, [create_story] takes title and href from that anchor and
    nothing from what follows it in the node. *)
Theorem create_story_first_anchor
    (n : string) (at_ : gmap string string) (cl : list string)
    (a : Tag) (rest : list Child) (meta : Tag) :
  name a = "a" →
  create_story (mkTag n at_ cl (CTag a :: rest)) meta =
    create_story (mkTag n at_ cl [CTag a]) meta.
Proof.
  intros Ha. unfold create_story. by rewrite !find_first_child.
Qed.

Lemma create_story_first_anchor_witness :
  create_story
    (mkTag "span" ∅ ["titleline"]
       [CTag (mkTag "a" {[ "href" := "http://a" ]} [] [CString "Foo"]);
        CTag (mkTag "span" ∅ ["sitebit"]
                [CString " (";
                 CTag (mkTag "a" {[ "href" := "from?site=a" ]} []
                         [CString "a"]);
                 CString ")"])])
    (story_subtext "150 points") =
  create_story (story_link "Foo" "http://a") (story_subtext "150 points").
Proof. apply create_story_first_anchor. reflexivity. Defined.

(** X16, pairing on a page of story groups.  On a page whose children
    fall into consecutive groups, each with one element of class
    [titleline] and one of class [subtext] at or below its nodes, the
    script pairs every title line with the subtext line of its own
    group. *)
Theorem main_logic_aligned
    (n : string) (at_ : gmap string string) (cl : list string)
    (groups : list (list Tag)) (links subtext : list Tag) :
  Forall2 (λ g link, flat_map (nodes_in "titleline") g = [link]) groups links →
  Forall2 (λ g meta, flat_map (nodes_in "subtext") g = [meta]) groups subtext →
  main_logic (mkTag n at_ cl (CTag <$> concat groups)) =
    create_custom_hn links subtext.
Proof.
  intros Hl Hm. unfold main_logic.
  rewrite !select_class_children, !flat_map_concat.
  by rewrite (concat_singletons _ _ _ Hl), (concat_singletons _ _ _ Hm).
Qed.

Lemma main_logic_aligned_witness :
  main_logic
    (mkTag "table" ∅ []
       (CTag <$> concat
          [[mkTag "tr" ∅ ["athing"] [CTag (story_link "Foo" "http://a")];
            mkTag "tr" ∅ [] [CTag (story_subtext "150 points")];
            mkTag "tr" ∅ ["spacer"] []];
           [mkTag "tr" ∅ ["athing"] [CTag (story_link "B" "http://b")];
            mkTag "tr" ∅ [] [CTag (story_subtext "500 points")];
            mkTag "tr" ∅ ["spacer"] []]])) =
  create_custom_hn
    [story_link "Foo" "http://a"; story_link "B" "http://b"]
    [story_subtext "150 points"; story_subtext "500 points"].
Proof.
  apply main_logic_aligned; repeat (constructor; [reflexivity|]); constructor.
Defined.

(** X17, what the script prints.  Whatever the page, the list the script
    prints is in descending order of score, holds only records with a
    score above 100 and a non-empty href, and has at most one record per
    element of class [titleline] on the page; each record carries the
    text and the href of the first anchor of such an element. *)
Theorem main_logic_output (soup : Tag) (out : list Story) :
  main_logic soup = Ok out →
  adjacent_desc out ∧
  (length out ≤ length (select_class "titleline" soup))%nat ∧
  ∀ s, s ∈ out →
       100 < Score s ∧ href s ≠ "" ∧
       ∃ link a, link ∈ select_class "titleline" soup ∧
                 find "a" link = Some a ∧
                 Title s = getText a ∧ get "href" a = Some (href s).
Proof.
  unfold main_logic.
  intros (filtered & (Hlen & stories & Hp & ->)%collect_spec & ->)%create_custom_hn_Ok.
  simpl. split_and!.
  - apply sorted_by_score_desc_adjacent.
  - unfold sort_stories_by_votes.
    rewrite (Permutation_length (sorted_by_score_desc_perm _)).
    rewrite <-(pair_results_length _ _ _ Hlen Hp). apply length_omap_id.
  - intros s [i Hi]%sort_stories_by_votes_elem%elem_of_omap_id.
    destruct (pair_results_lookup_r _ _ _ _ _ Hp Hi)
      as (link & meta & Hl & _ & Hs).
    apply create_story_Some in Hs as (a & h & Ha & Hh & Hne & _ & Hlt & ->).
    simpl. split_and!; [done..|].
    exists link, a. split_and!; [|done..].
    apply list_elem_of_lookup. by exists i.
Qed.

Lemma main_logic_output_witness :
  adjacent_desc [mkStory "B" "http://b" 500; mkStory "Foo" "http://a" 150].
Proof.
  apply (main_logic_output
           (mkTag "table" ∅ []
              [CTag (mkTag "tr" ∅ ["athing"] [CTag (story_link "Foo" "http://a")]);
               CTag (mkTag "tr" ∅ [] [CTag (story_subtext "150 points")]);
               CTag (mkTag "tr" ∅ ["athing"] [CTag (story_link "B" "http://b")]);
               CTag (mkTag "tr" ∅ [] [CTag (story_subtext "500 points")])])).
  vm_compute. reflexivity.
Defined.
